(** * solarcell.py: the single-diode Newton-Raphson solver and its sweep

    A shallow embedding of [solarcell.py] and the properties its
    specification states about it.

    Numbers are IEEE binary64 values, as in CPython and NumPy: the model uses
    Rocq's primitive [float], whose operations are the processor's.  A scalar
    also carries the Python type it lives in ([float] or [numpy.float64]),
    since the two disagree on division by zero.  [numpy.exp] belongs to NumPy
    and not to the repository: the solver is parametrised by it.  NumPy's
    floating-point warnings (overflow, invalid value) are not exceptions in
    its default error state and are left out.  The plotting and printing
    after line 45 are outside the model. *)

From Stdlib Require Import ZArith List Bool Lia Floats.
Import ListNotations.

Set Warnings "-inexact-float".

(** ** Python values and the evaluation monad *)

(** The exceptions the modelled statements can raise. *)
Inductive exn : Type :=
| ZeroDivisionError
| UnboundLocalError.

Inductive outcome (A : Type) : Type :=
| Ok (a : A)
| Raise (e : exn).
Arguments Ok {A} a.
Arguments Raise {A} e.

Definition is_ok {A : Type} (o : outcome A) : bool :=
  match o with Ok _ => true | Raise _ => false end.

(** The module-level names of [solarcell.py] that hold numbers (lines 5-17).
    [Rsh = 10000] is an [int] in the source; it only ever meets a [float]
    operand, where Python converts it, exactly, to [10000.0]. *)
Module Globals.
Record t : Type := Build {
  Voc : float; Jsc : float; FF : float; eta : float;
  V_MPP : float; J_MPP : float;
  Vt : float; n : float; J0 : float; Rs : float; Rsh : float }.
End Globals.

(** The module namespace after lines 5-17 have run. *)
Definition module_globals : Globals.t :=
  (* the float literals below are read as Python reads them: to the nearest binary64 *)
  {| Globals.Voc := 1.008312; Globals.Jsc := 30.52638788;
     Globals.FF := 0.883105; Globals.eta := 0.271821;
     Globals.V_MPP := 0.915723; Globals.J_MPP := 29.68373326;
     Globals.Vt := 0.02585; Globals.n := 1.2; Globals.J0 := 1e-12;
     Globals.Rs := 0.001; Globals.Rsh := 10000 |}%float.

(** A computation reads and may write the module namespace, and ends in a
    value or in an exception. *)
Definition M (A : Type) : Type := Globals.t -> outcome A * Globals.t.

Definition ret {A : Type} (a : A) : M A := fun g => (Ok a, g).

Definition raise {A : Type} (e : exn) : M A := fun g => (Raise e, g).

Definition bind {A B : Type} (c : M A) (k : A -> M B) : M B :=
  fun g => match c g with
           | (Ok a, g') => k a g'
           | (Raise e, g') => (Raise e, g')
           end.

(** Reading a module-level name. *)
Definition load {A : Type} (name : Globals.t -> A) : M A := fun g => (Ok (name g), g).

Declare Scope py_scope.
Delimit Scope py_scope with py.
Notation "x <- c ;; k" := (bind c (fun x => k))
  (at level 61, c at next level, right associativity) : py_scope.

(** A number is a Python [float] or a [numpy.float64]; both are binary64. *)
Inductive scalar : Type :=
| PyFloat (x : float)
| NpFloat64 (x : float).

Coercion PyFloat : float >-> scalar.

Definition value (s : scalar) : float :=
  match s with PyFloat x | NpFloat64 x => x end.

(** Arithmetic: a [numpy.float64] operand makes the result a [numpy.float64]. *)
Definition arith (op : float -> float -> float) (a b : scalar) : scalar :=
  match a, b with
  | PyFloat x, PyFloat y => PyFloat (op x y)
  | _, _ => NpFloat64 (op (value a) (value b))
  end.

Definition py_add : scalar -> scalar -> scalar := arith PrimFloat.add.
Definition py_sub : scalar -> scalar -> scalar := arith PrimFloat.sub.
Definition py_mul : scalar -> scalar -> scalar := arith PrimFloat.mul.

(** [a / b]: between two Python floats a zero divisor raises
    [ZeroDivisionError]; NumPy's division returns the IEEE quotient
    (an infinity or a NaN) instead. *)
Definition truediv (a b : scalar) : M scalar :=
  match a, b with
  | PyFloat x, PyFloat y =>
      if PrimFloat.eqb y 0%float then raise ZeroDivisionError
      else ret (PyFloat (PrimFloat.div x y))
  | _, _ => ret (NpFloat64 (PrimFloat.div (value a) (value b)))
  end.

(** The builtin [abs] keeps the type of its argument. *)
Definition py_abs (a : scalar) : scalar :=
  match a with
  | PyFloat x => PyFloat (PrimFloat.abs x)
  | NpFloat64 x => NpFloat64 (PrimFloat.abs x)
  end.

(** [a < b], read as a truth value. *)
Definition py_lt (a b : scalar) : bool := PrimFloat.ltb (value a) (value b).

Notation "a + b" := (py_add a b) : py_scope.
Notation "a - b" := (py_sub a b) : py_scope.
Notation "a * b" := (py_mul a b) : py_scope.

(** ** Loops *)

Inductive control : Type := Continue | Break.

(** [for x in xs: body], where the body says whether it ran into [break]. *)
Fixpoint for_in {X S : Type} (body : X -> S -> M (control * S)) (xs : list X) (s : S)
  : M S :=
  match xs with
  | [] => ret s
  | x :: xs' =>
      (r <- body x s ;;
       match r with
       | (Break, s') => ret s'
       | (Continue, s') => for_in body xs' s'
       end)%py
  end.

(** [range(n)]. *)
Definition range (n : nat) : list nat := seq 0 n.

(** [[f(x) for x in xs]]. *)
Fixpoint list_comprehension {X Y : Type} (f : X -> M Y) (xs : list X) : M (list Y) :=
  match xs with
  | [] => ret []
  | x :: xs' => (y <- f x ;; ys <- list_comprehension f xs' ;; ret (y :: ys))%py
  end.

(** ** The solver (lines 20-40) *)

(** The local variables of one call of [solar_cell_current]; [None] is a name
    not yet bound.  [fr_loop] is the loop variable [_]. *)
Record frame : Type := {
  fr_J_guess : scalar;
  fr_f : option scalar;
  fr_df : option scalar;
  fr_J_new : option scalar;
  fr_loop : option nat }.

Section Solver.

Local Open Scope float_scope.

(** [numpy.exp] on binary64 values. *)
Variable exp : float -> float.

(** [np.exp(x)] returns a [numpy.float64] whatever the type of [x]. *)
Definition np_exp (x : scalar) : scalar := NpFloat64 (exp (value x)).

Section Call.

(** The arguments of the call, after the defaults have been filled in. *)
Variable V : scalar.
Variables Jsc J0 n Rs Rsh : float.

(** Line 30:
    [f = J_guess - Jsc + J0*(np.exp((V + J_guess*Rs)/(n*Vt)) - 1) + (V + J_guess*Rs)/Rsh] *)
Definition eval_f (J_guess : scalar) : M scalar :=
  (Vt <- load Globals.Vt ;;
   x <- truediv (V + J_guess * Rs) (n * Vt) ;;
   y <- truediv (V + J_guess * Rs) Rsh ;;
   ret (J_guess - Jsc + J0 * (np_exp x - 1) + y))%py.

(** Line 32:
    [df = 1 + (J0*Rs/(n*Vt))*np.exp((V + J_guess*Rs)/(n*Vt)) + Rs/Rsh] *)
Definition eval_df (J_guess : scalar) : M scalar :=
  (Vt <- load Globals.Vt ;;
   c <- truediv (J0 * Rs) (n * Vt) ;;
   Vt' <- load Globals.Vt ;;
   x <- truediv (V + J_guess * Rs) (n * Vt') ;;
   r <- truediv Rs Rsh ;;
   ret (1 + c * np_exp x + r))%py.

(** Lines 29-38: the body of the loop. *)
Definition newton_body (i : nat) (l : frame) : M (control * frame) :=
  (f <- eval_f (fr_J_guess l) ;;
   df <- eval_df (fr_J_guess l) ;;
   q <- truediv f df ;;
   let J_new := fr_J_guess l - q in
   if py_lt (py_abs (J_new - fr_J_guess l)) 1e-10
   then ret (Break,
             {| fr_J_guess := fr_J_guess l; fr_f := Some f; fr_df := Some df;
                fr_J_new := Some J_new; fr_loop := Some i |})
   else ret (Continue,
             {| fr_J_guess := J_new; fr_f := Some f; fr_df := Some df;
                fr_J_new := Some J_new; fr_loop := Some i |}))%py.

(** Lines 26-38: the local variables when the loop is left. *)
Definition solar_cell_current_frame : M frame :=
  for_in newton_body (range 100)
    {| fr_J_guess := Jsc; fr_f := None; fr_df := None;
       fr_J_new := None; fr_loop := None |}.

(** Line 40: [return J_new]. *)
Definition solar_cell_current_body : M scalar :=
  (l <- solar_cell_current_frame ;;
   match fr_J_new l with
   | Some J_new => ret J_new
   | None => raise UnboundLocalError
   end)%py.

End Call.

(** A keyword argument left out takes the default bound when [def] ran. *)
Definition kwarg (given : option float) (default : float) : float :=
  match given with Some x => x | None => default end.

(** [def solar_cell_current(V, Jsc=Jsc, J0=J0, n=n, Rs=Rs, Rsh=Rsh)]: the
    defaults are the module's values of these names at line 20. *)
Definition solar_cell_current (V : scalar) (Jsc J0 n Rs Rsh : option float) : M scalar :=
  solar_cell_current_body V
    (kwarg Jsc (Globals.Jsc module_globals))
    (kwarg J0 (Globals.J0 module_globals))
    (kwarg n (Globals.n module_globals))
    (kwarg Rs (Globals.Rs module_globals))
    (kwarg Rsh (Globals.Rsh module_globals)).

End Solver.

(** ** The iteration as the specification words it *)

Module Spec.
Section Iteration.

Local Open Scope float_scope.

Variable exp : float -> float.

(** CellParameters and the applied voltage. *)
Variables Vt V Jsc J0 n Rs Rsh : float.

(** f(J) = J − Jsc + J0·(exp((V + J·Rs)/(n·Vt)) − 1) + (V + J·Rs)/Rsh *)
Definition f (J : float) : float :=
  J - Jsc + J0 * (exp ((V + J * Rs) / (n * Vt)) - 1) + (V + J * Rs) / Rsh.

(** f′(J) = 1 + (J0·Rs/(n·Vt))·exp((V + J·Rs)/(n·Vt)) + Rs/Rsh *)
Definition f' (J : float) : float :=
  1 + (J0 * Rs / (n * Vt)) * exp ((V + J * Rs) / (n * Vt)) + Rs / Rsh.

(** Jₖ₊₁ = Jₖ − f(Jₖ)/f′(Jₖ) *)
Definition newton_step (J : float) : float := J - f J / f' J.

(** J₀ = Jsc *)
Fixpoint iterate (k : nat) : float :=
  match k with
  | O => Jsc
  | S k' => newton_step (iterate k')
  end.

(** |Jₖ₊₁ − Jₖ| < 1e-10 *)
Definition step_small (k : nat) : bool :=
  abs (iterate (S k) - iterate k) <? 1e-10.

(** The first step from [k] on that meets the tolerance, when one of the
    [cap] steps [k], ..., [k + cap - 1] does, and the last of them otherwise. *)
Fixpoint stop_from (k cap : nat) : nat :=
  match cap with
  | O => k
  | S O => k
  | S cap' => if step_small k then k else stop_from (S k) cap'
  end.

(** The step at which the iteration stops under the cap of 100. *)
Definition stop_index : nat := stop_from 0 100.

(** The value the iteration ends with. *)
Definition result : float := iterate (S stop_index).

(** No step within the cap meets the tolerance. *)
Definition never_converges : bool :=
  forallb (fun k => negb (step_small k)) (seq 0 100).

End Iteration.
End Spec.

(** ** An executable exponential

    [numpy.exp] is not part of the repository.  To run the model on concrete
    inputs, [exp_model] computes the exponential in binary64 by argument
    reduction and a Taylor polynomial; it overflows to [infinity] above
    [709.782712893384] and maps NaN to NaN, as an IEEE exponential does.  Its
    last bits need not be those of NumPy's; the theorems hold for every
    exponential, and the concrete runs below rest only on where it overflows
    and on the sign of its values. *)

Definition Z_of_integral (x : float) : Z :=
  match Prim2SF x with
  | S754_finite s m e => cond_Zopp s (Z.shiftl (Zpos m) e)
  | _ => 0%Z
  end.

Definition exp_poly (r : float) : float :=
  fold_left (fun p i => (1 + r * p / i)%float)
    [13; 12; 11; 10; 9; 8; 7; 6; 5; 4; 3; 2; 1]%float 1%float.

Definition exp_model (x : float) : float :=
  (if is_nan x then nan
   else if 709.782712893384 <? x then infinity
   else if x <? -745.1332191019412 then 0
   else
     let k := (x * 1.4426950408889634 + 6755399441055744) - 6755399441055744 in
     let r := (x - k * 0.6931471803691238) - k * 1.9082149292705877e-10 in
     Z.ldexp (exp_poly r) (Z_of_integral k))%float.


(** ** The sweep (lines 43-45) *)

(** [numpy.linspace] is NumPy's, not the repository's.  It is modelled by the
    algorithm NumPy documents for [num > 1] samples with the endpoint
    included: [step = (stop - start)/(num - 1)], sample [i] is
    [i*step + start], and the last sample is set to [stop]. *)
Definition float_of_nat (i : nat) : float := PrimFloat.of_uint63 (Uint63.of_Z (Z.of_nat i)).

Definition np_linspace (start stop : float) (num : nat) : list scalar :=
  let step := PrimFloat.div (PrimFloat.sub stop start) (float_of_nat (num - 1)) in
  map (fun i => NpFloat64 (if Nat.eqb i (num - 1) then stop
                           else PrimFloat.add (PrimFloat.mul (float_of_nat i) step) start))
      (seq 0 num).

(** The product of two arrays of one shape. *)
Fixpoint np_multiply (xs ys : list scalar) : list scalar :=
  match xs, ys with
  | x :: xs', y :: ys' => py_mul x y :: np_multiply xs' ys'
  | _, _ => []
  end.

Section Sweep.

Variable exp : float -> float.

(** Line 43: [V_range = np.linspace(-0.1, Voc + 0.05, 500)] *)
Definition V_range : M (list scalar) :=
  (Voc <- load Globals.Voc ;;
   ret (np_linspace (-0.1)%float (PrimFloat.add Voc 0.05%float) 500))%py.

(** Line 44: [J_range = np.array([solar_cell_current(V) for V in V_range])] *)
Definition J_range (Vs : list scalar) : M (list scalar) :=
  list_comprehension (fun V => solar_cell_current exp V None None None None None) Vs.

(** Line 45: [P_range = V_range * J_range] *)
Definition P_range (Vs Js : list scalar) : list scalar := np_multiply Vs Js.

(** Lines 43-45, giving the three arrays. *)
Definition sweep : M (list scalar * list scalar * list scalar) :=
  (Vs <- V_range ;;
   Js <- J_range Vs ;;
   ret (Vs, Js, P_range Vs Js))%py.

End Sweep.

(** Strictly increasing values. *)
Fixpoint ascending (xs : list scalar) : bool :=
  match xs with
  | x :: (y :: _) as xs' => py_lt x y && ascending xs'
  | _ => true
  end.

(** ** Notions the statements below use *)

(** The divisors that Python's own [/] meets in a call: [n*Vt] and [Rsh]. *)
Definition zero_divisor (g : Globals.t) (n Rsh : float) : bool :=
  PrimFloat.eqb (PrimFloat.mul n (Globals.Vt g)) 0%float || PrimFloat.eqb Rsh 0%float.

(** One pass through the loop body from a frame whose [J_guess] is [x]: it
    binds [f], [df] and [J_new] to the specified values, and breaks exactly
    when the step is below the tolerance. *)
Definition after_step (exp : float -> float) (V : scalar) (Jsc J0 n Rs Rsh : float)
    (g : Globals.t) (i : nat) (x : float) (c : control) (l : frame) : Prop :=
  let fx := Spec.f exp (Globals.Vt g) (value V) Jsc J0 n Rs Rsh x in
  let dfx := Spec.f' exp (Globals.Vt g) (value V) J0 n Rs Rsh x in
  let x' := Spec.newton_step exp (Globals.Vt g) (value V) Jsc J0 n Rs Rsh x in
  fr_f l = Some (NpFloat64 fx) /\
  fr_df l = Some (NpFloat64 dfx) /\
  fr_J_new l = Some (NpFloat64 x') /\
  fr_loop l = Some i /\
  (if PrimFloat.ltb (PrimFloat.abs (PrimFloat.sub x' x)) 1e-10%float
   then c = Break
   else c = Continue /\ fr_J_guess l = NpFloat64 x').

(** ** Binary64 values by sign and size *)

(** The float 1.0. *)
Definition SF1 : spec_float := S754_finite false 4503599627370496 (-52).

(** NaN, a zero of either sign, or a positive number. *)
Definition SFnonneg (s : spec_float) : bool :=
  match s with
  | S754_nan | S754_zero _ => true
  | S754_infinity b | S754_finite b _ _ => negb b
  end.

(** NaN, or a value whose sign bit is clear. *)
Definition SFsign_clear (s : spec_float) : bool :=
  match s with
  | S754_nan => true
  | S754_zero b | S754_infinity b | S754_finite b _ _ => negb b
  end.

(** A number above zero. *)
Definition SFpositive (s : spec_float) : bool :=
  match s with
  | S754_infinity b | S754_finite b _ _ => negb b
  | _ => false
  end.

(** NaN, or at least 1. *)
Definition SFge_one (s : spec_float) : bool :=
  match s with
  | S754_nan => true
  | _ => SFleb SF1 s
  end.

(** * Proofs *)

(** ** Binary64 arithmetic

    Facts about the primitive operations, from their specification in
    [SpecFloat]: what rounding to nearest does to signs and to sums. *)

Section FloatFacts.

Local Open Scope Z_scope.

Lemma digits2_pos_bounds (p : positive) :
  2 ^ (Zpos (digits2_pos p) - 1) <= Zpos p < 2 ^ Zpos (digits2_pos p).
Proof.
  induction p as [p IH|p IH|]; cbn [digits2_pos].
  1, 2: rewrite Pos2Z.inj_succ;
    replace (Z.succ (Zpos (digits2_pos p)) - 1) with (Z.succ (Zpos (digits2_pos p) - 1))
      by lia;
    rewrite !Z.pow_succ_r by lia; lia.
  cbn. lia.
Qed.

Lemma digits2_pos_le (p q : positive) :
  Zpos p <= Zpos q -> Zpos (digits2_pos p) <= Zpos (digits2_pos q).
Proof.
  intros H. pose proof (digits2_pos_bounds p) as [Hp _].
  pose proof (digits2_pos_bounds q) as [_ Hq].
  destruct (Z_le_gt_dec (Zpos (digits2_pos p)) (Zpos (digits2_pos q))) as [|Hgt];
    [assumption|].
  exfalso.
  assert (2 ^ Zpos (digits2_pos q) <= 2 ^ (Zpos (digits2_pos p) - 1))
    by (apply Z.pow_le_mono_r; lia).
  lia.
Qed.

Lemma shr_1_m (mrs : shr_record) :
  0 <= shr_m mrs -> shr_m (shr_1 mrs) = Z.div2 (shr_m mrs).
Proof.
  destruct mrs as [m r s]. cbn [shr_m]. intros Hm.
  destruct m as [|[p|p|]|p]; cbn; try reflexivity; lia.
Qed.

Lemma iter_pos_shr_1_m (n : positive) (mrs : shr_record) :
  0 <= shr_m mrs -> shr_m (iter_pos shr_1 n mrs) = shr_m mrs / 2 ^ Zpos n.
Proof.
  revert mrs. induction n as [n IH|n IH|]; intros mrs Hm; cbn [iter_pos].
  - assert (H1 : 0 <= shr_m (shr_1 mrs))
      by (rewrite shr_1_m by assumption; rewrite Z.div2_div; apply Z.div_pos; lia).
    assert (H2 : 0 <= shr_m (iter_pos shr_1 n (shr_1 mrs)))
      by (rewrite IH by assumption; apply Z.div_pos; lia).
    rewrite IH, IH, shr_1_m by assumption. rewrite Z.div2_div.
    rewrite !Z.div_div by lia. f_equal.
    change 2 with (2 ^ 1) at 1. rewrite <- !Z.pow_add_r by lia. f_equal. lia.
  - assert (H2 : 0 <= shr_m (iter_pos shr_1 n mrs))
      by (rewrite IH by assumption; apply Z.div_pos; lia).
    rewrite IH, IH by assumption.
    rewrite !Z.div_div by lia. f_equal.
    rewrite <- Z.pow_add_r by lia. f_equal. lia.
  - rewrite shr_1_m by assumption. rewrite Z.div2_div. reflexivity.
Qed.

Lemma iter_xO_Z (d m : positive) : Zpos (Pos.iter xO m d) = Zpos m * 2 ^ Zpos d.
Proof.
  induction d as [|d IH] using Pos.peano_ind.
  - cbn. lia.
  - rewrite Pos.iter_succ, Pos2Z.inj_xO, IH, Pos2Z.inj_succ, Z.pow_succ_r by lia. ring.
Qed.

Lemma digits2_pos_unique (p : positive) (d : Z) :
  2 ^ (d - 1) <= Zpos p < 2 ^ d -> Zpos (digits2_pos p) = d.
Proof.
  intros [Hlo Hhi]. pose proof (digits2_pos_bounds p) as [Hp Hq].
  assert (0 < d).
  { destruct (Z_lt_le_dec 0 d); [assumption|]. exfalso.
    assert (2 ^ d <= 2 ^ 0)
      by (destruct (Z_lt_le_dec d 0);
          [rewrite Z.pow_neg_r by lia; cbn; lia|apply Z.pow_le_mono_r; lia]).
    cbn in *. lia. }
  destruct (Z.lt_trichotomy (Zpos (digits2_pos p)) d) as [Hlt|[Heq|Hgt]]; [|assumption|]; exfalso.
  - assert (2 ^ Zpos (digits2_pos p) <= 2 ^ (d - 1)) by (apply Z.pow_le_mono_r; lia). lia.
  - assert (2 ^ d <= 2 ^ (Zpos (digits2_pos p) - 1)) by (apply Z.pow_le_mono_r; lia). lia.
Qed.

Lemma fexp64 (e : Z) : fexp prec emax e = Z.max (e - 53) (-1074).
Proof. reflexivity. Qed.

Lemma shr_m_of_loc (m : Z) (l : location) : shr_m (shr_record_of_loc m l) = m.
Proof. destruct l as [|[]]; reflexivity. Qed.

Lemma shr_fexp_normal (M : positive) (e : Z) (l : location) :
  53 <= Zpos (digits2_pos M) ->
  -1074 <= Zpos (digits2_pos M) + e - 53 ->
  exists mrs,
    shr_fexp prec emax (Zpos M) e l = (mrs, Zpos (digits2_pos M) + e - 53) /\
    2 ^ 52 <= shr_m mrs < 2 ^ 53.
Proof.
  intros Hd He. pose proof (digits2_pos_bounds M) as [Hlo Hhi].
  unfold shr_fexp. cbn [Zdigits2]. rewrite fexp64.
  replace (Z.max (Zpos (digits2_pos M) + e - 53) (-1074) - e)
    with (Zpos (digits2_pos M) - 53) by lia.
  unfold shr. destruct (Zpos (digits2_pos M) - 53) as [|n|n] eqn:En; try lia.
  - eexists. split; [f_equal; lia|]. rewrite shr_m_of_loc.
    replace (Zpos (digits2_pos M)) with 53 in * by lia. split; [exact Hlo|exact Hhi].
  - eexists. split; [f_equal; lia|].
    rewrite iter_pos_shr_1_m by (rewrite shr_m_of_loc; lia). rewrite shr_m_of_loc.
    assert (Hn : Zpos (digits2_pos M) = 53 + Zpos n) by lia.
    rewrite Hn in Hlo, Hhi.
    replace (53 + Zpos n - 1) with (52 + Zpos n) in Hlo by lia.
    rewrite Z.pow_add_r in Hlo, Hhi by lia.
    split.
    + apply Z.div_le_lower_bound; lia.
    + apply Z.div_lt_upper_bound; lia.
Qed.

Lemma round_nearest_even_range (m : Z) (l : location) :
  m <= round_nearest_even m l <= m + 1.
Proof. destruct l as [|[]]; cbn; try lia. destruct (Z.even m); lia. Qed.

Lemma digits2_pos_large (q : positive) : 2 ^ 52 <= Zpos q -> 53 <= Zpos (digits2_pos q).
Proof.
  intros H. change 53 with (Zpos (digits2_pos 4503599627370496)).
  apply digits2_pos_le. exact H.
Qed.

(** Rounding a mantissa of at least 53 bits in the normal range. *)
Lemma binary_round_aux_normal (M : positive) (e : Z) (l : location) :
  53 <= Zpos (digits2_pos M) ->
  -1074 <= Zpos (digits2_pos M) + e - 53 ->
  exists (p : positive) (e'' : Z),
    Zpos (digits2_pos M) + e - 53 <= e'' /\
    2 ^ 52 <= Zpos p /\
    binary_round_aux prec emax false (Zpos M) e l =
    if e'' <=? emax - prec then S754_finite false p e'' else S754_infinity false.
Proof.
  intros Hd He. unfold binary_round_aux.
  destruct (shr_fexp_normal M e l Hd He) as (mrs & -> & Hm).
  pose proof (round_nearest_even_range (shr_m mrs) (loc_of_shr_record mrs)) as Hr.
  destruct (round_nearest_even (shr_m mrs) (loc_of_shr_record mrs)) as [|q|q] eqn:Eq; try lia.
  assert (Hq : 53 <= Zpos (digits2_pos q)) by (apply digits2_pos_large; lia).
  destruct (shr_fexp_normal q (Zpos (digits2_pos M) + e - 53) loc_Exact Hq ltac:(lia))
    as (mrs2 & -> & Hm2).
  destruct (shr_m mrs2) as [|p|p] eqn:Ep; try lia.
  exists p, (Zpos (digits2_pos q) + (Zpos (digits2_pos M) + e - 53) - 53).
  split; [lia|]. split; [lia|]. reflexivity.
Qed.

Lemma shl_align_below (m : positive) (ex ez : Z) :
  ez <= ex -> Zpos (fst (shl_align m ex ez)) = Zpos m * 2 ^ (ex - ez).
Proof.
  intros H. unfold shl_align. destruct (ez - ex) as [|d|d] eqn:Ed; try lia; cbn [fst].
  - replace (ex - ez) with 0 by lia. cbn. lia.
  - rewrite iter_xO_Z. f_equal. f_equal. lia.
Qed.

Lemma shl_align_above (m : positive) (ex ex' : Z) :
  ex <= ex' -> shl_align m ex ex' = (m, ex).
Proof. intros H. unfold shl_align. destruct (ex' - ex) eqn:E; try reflexivity; lia. Qed.

Lemma SFleb_one_finite (b : bool) (m : positive) (e : Z) :
  SFleb SF1 (S754_finite b m e) = true ->
  b = false /\ -52 <= e.
Proof.
  unfold SFleb, SFcompare, SF1. destruct b; [discriminate|].
  destruct (Z.compare_spec (-52) e); intros Hc; split; try reflexivity; try lia; discriminate.
Qed.

(** The sum of a float that is at least 1 and a positive float is at least 1:
    rounding to nearest does not take the exact sum below 1. *)
Lemma SF64add_ge_one (ms mr : positive) (es er : Z) :
  valid_binary (S754_finite false ms es) = true ->
  SFleb SF1 (S754_finite false ms es) = true ->
  SFleb SF1 (SF64add (S754_finite false ms es) (S754_finite false mr er)) = true.
Proof.
  intros Hv H1. apply SFleb_one_finite in H1. destruct H1 as [_ Hes].
  cbn [SpecFloat.valid_binary] in Hv. unfold bounded, canonical_mantissa in Hv.
  apply andb_true_iff in Hv. destruct Hv as [Hc _].
  apply Z.eqb_eq in Hc. rewrite fexp64 in Hc.
  assert (Hds : Zpos (digits2_pos ms) = 53) by lia.
  unfold SF64add, SFadd. cbn [cond_Zopp].
  set (ez := Z.min es er).
  assert (Hz1 : ez <= es) by (unfold ez; lia).
  assert (Hz2 : ez <= er) by (unfold ez; lia).
  pose proof (shl_align_below ms es ez Hz1) as E1.
  pose proof (shl_align_below mr er ez Hz2) as E2.
  set (m1 := fst (shl_align ms es ez)) in *.
  set (m2 := fst (shl_align mr er ez)) in *.
  change (Zpos m1 + Zpos m2) with (Zpos (m1 + m2)).
  cbn [binary_normalize]. unfold binary_round.
  pose proof (digits2_pos_bounds ms) as [Hlo Hhi]. rewrite Hds in Hlo, Hhi.
  assert (Hd1 : Zpos (digits2_pos m1) = 53 + (es - ez)).
  { apply digits2_pos_unique. rewrite E1.
    replace (53 + (es - ez) - 1) with (52 + (es - ez)) by lia.
    rewrite !Z.pow_add_r by lia.
    assert (0 < 2 ^ (es - ez)) by (apply Z.pow_pos_nonneg; lia).
    split; [apply Z.mul_le_mono_nonneg_r; lia|apply Z.mul_lt_mono_pos_r; lia]. }
  assert (HD : 53 + (es - ez) <= Zpos (digits2_pos (m1 + m2))).
  { rewrite <- Hd1. apply digits2_pos_le. lia. }
  rewrite shl_align_above by (rewrite fexp64; lia).
  destruct (binary_round_aux_normal (m1 + m2) ez loc_Exact ltac:(lia) ltac:(lia))
    as (p & e'' & He & Hp & ->).
  destruct (e'' <=? emax - prec); [|reflexivity].
  unfold SFleb, SFcompare, SF1.
  destruct (Z.compare_spec (-52) e'') as [E|E|E]; try reflexivity; try lia.
  rewrite Pos.compare_cont_spec. cbn [Pos.switch_Eq].
  destruct (Pos.compare_spec 4503599627370496 p) as [E'|E'|E']; try reflexivity.
  exfalso. apply Pos2Z.pos_lt_pos in E'. change (2 ^ 52) with (Zpos 4503599627370496) in Hp. lia.
Qed.

(** *** Signs *)

Lemma binary_round_aux_sign_clear (m e : Z) (l : location) :
  SFsign_clear (binary_round_aux prec emax false m e l) = true.
Proof.
  unfold binary_round_aux.
  destruct (shr_fexp prec emax m e l) as [mrs e'].
  destruct (shr_fexp prec emax _ e' loc_Exact) as [mrs2 e2].
  destruct (shr_m mrs2); try reflexivity.
  now destruct (e2 <=? emax - prec).
Qed.

Lemma SFsign_clear_nonneg (s : spec_float) : SFsign_clear s = true -> SFnonneg s = true.
Proof. now destruct s as [[]|[]| |[] m e]. Qed.

Lemma SFpositive_sign_clear (s : spec_float) : SFpositive s = true -> SFsign_clear s = true.
Proof. now destruct s as [[]|[]| |[] m e]. Qed.

Lemma SF64mul_nonneg (x y : spec_float) :
  SFnonneg x = true -> SFnonneg y = true -> SFnonneg (SF64mul x y) = true.
Proof.
  destruct x as [bx|[]| |[] mx ex], y as [by'|[]| |[] my ey];
    try discriminate; try reflexivity; intros _ _; cbn [SF64mul SFmul xorb].
  apply SFsign_clear_nonneg, binary_round_aux_sign_clear.
Qed.

Lemma SF64mul_positive (x y : spec_float) :
  SFpositive x = true -> SFpositive y = true -> SFsign_clear (SF64mul x y) = true.
Proof.
  destruct x as [bx|[]| |[] mx ex], y as [by'|[]| |[] my ey];
    try discriminate; try reflexivity; intros _ _; cbn [SF64mul SFmul xorb].
  apply binary_round_aux_sign_clear.
Qed.

Lemma SF64div_nonneg (x y : spec_float) :
  SFnonneg x = true -> SFsign_clear y = true -> SFnonneg (SF64div x y) = true.
Proof.
  destruct x as [bx|[]| |[] mx ex], y as [[]|[]| |[] my ey];
    try discriminate; try reflexivity; intros _ _; unfold SF64div, SFdiv; cbn [xorb].
  destruct (SFdiv_core_binary prec emax (Zpos mx) ex (Zpos my) ey) as [[mz ez] lz].
  apply SFsign_clear_nonneg, binary_round_aux_sign_clear.
Qed.

Lemma SF64add_one_nonneg (y : spec_float) :
  valid_binary y = true -> SFnonneg y = true -> SFge_one (SF64add SF1 y) = true.
Proof.
  intros Hv Hy. destruct y as [b|[]| |[] my ey]; try discriminate; try reflexivity.
  assert (H : SFleb SF1 (SF64add SF1 (S754_finite false my ey)) = true)
    by (apply SF64add_ge_one; reflexivity).
  unfold SFge_one. now destruct (SF64add SF1 (S754_finite false my ey)).
Qed.

Lemma SF64add_ge_one_nonneg (x y : spec_float) :
  valid_binary x = true ->
  SFge_one x = true -> SFnonneg y = true -> SFge_one (SF64add x y) = true.
Proof.
  intros Hv Hx Hy.
  destruct x as [bx|[]| |bx mx ex]; try discriminate.
  - destruct y as [b|[]| |[] my ey]; try discriminate; reflexivity.
  - now destruct y.
  - pose proof (SFleb_one_finite _ _ _ Hx) as [-> _].
    destruct y as [b|[]| |[] my ey]; try discriminate; try reflexivity; try exact Hx.
    assert (H : SFleb SF1 (SF64add (S754_finite false mx ex) (S754_finite false my ey)) = true)
      by (apply SF64add_ge_one; assumption).
    unfold SFge_one. now destruct (SF64add _ _).
Qed.

(** *** From the specification to the primitive operations *)

Local Open Scope float_scope.

Lemma leb_zero_nonneg (x : float) : (0 <=? x) = true -> SFnonneg (Prim2SF x) = true.
Proof.
  rewrite leb_spec. change (Prim2SF 0) with (S754_zero false).
  now destruct (Prim2SF x) as [b|[]| |[] m e].
Qed.

Lemma ltb_zero_positive (x : float) : (0 <? x) = true -> SFpositive (Prim2SF x) = true.
Proof.
  rewrite ltb_spec. change (Prim2SF 0) with (S754_zero false).
  now destruct (Prim2SF x) as [b|[]| |[] m e].
Qed.

Lemma SFcompare_refl (s : spec_float) : s <> S754_nan -> SFcompare s s = Some Eq.
Proof.
  destruct s as [b|[]| |[] m e]; try reflexivity; try congruence; intros _; cbn;
    rewrite Z.compare_refl, Pos.compare_cont_refl; reflexivity.
Qed.

Lemma is_nan_spec (x : float) :
  is_nan x = match Prim2SF x with S754_nan => true | _ => false end.
Proof.
  unfold is_nan. rewrite eqb_spec. unfold SFeqb.
  destruct (Prim2SF x) as [b|b| |b m e] eqn:E; try reflexivity;
    rewrite SFcompare_refl by discriminate; reflexivity.
Qed.

Lemma ge_one_spec (x : float) :
  SFge_one (Prim2SF x) = true -> (is_nan x || (1 <=? x)) = true.
Proof.
  rewrite is_nan_spec, leb_spec. change (Prim2SF 1) with SF1.
  now destruct (Prim2SF x).
Qed.

Lemma nonneg_spec (x : float) :
  (is_nan x || (0 <=? x)) = true -> SFnonneg (Prim2SF x) = true.
Proof.
  rewrite is_nan_spec. destruct (Prim2SF x) eqn:E; try reflexivity;
    cbn [orb]; intros H; apply leb_zero_nonneg in H; now rewrite E in H.
Qed.

Lemma ge_one_not_zero (x : float) : SFge_one (Prim2SF x) = true -> (x =? 0) = false.
Proof.
  rewrite eqb_spec. change (Prim2SF 0) with (S754_zero false).
  destruct (Prim2SF x) as [b|[]| |b m e]; try reflexivity; try discriminate.
  intros H. apply SFleb_one_finite in H. destruct H as [-> _]. reflexivity.
Qed.

End FloatFacts.

(** ** The evaluation monad *)

Lemma bind_ok {A B : Type} (c : M A) (k : A -> M B) (g g' : Globals.t) (a : A) :
  c g = (Ok a, g') -> bind c k g = k a g'.
Proof. intros H. unfold bind. now rewrite H. Qed.

Lemma bind_raise {A B : Type} (c : M A) (k : A -> M B) (g g' : Globals.t) (e : exn) :
  c g = (Raise e, g') -> bind c k g = (Raise e, g').
Proof. intros H. unfold bind. now rewrite H. Qed.

Lemma bind_load {A B : Type} (name : Globals.t -> A) (k : A -> M B) (g : Globals.t) :
  bind (load name) k g = k (name g) g.
Proof. reflexivity. Qed.

Lemma bind_truediv_py (x y : float) {B : Type} (k : scalar -> M B) (g : Globals.t) :
  bind (truediv (PyFloat x) (PyFloat y)) k g
  = if PrimFloat.eqb y 0%float then (Raise ZeroDivisionError, g)
    else k (PyFloat (PrimFloat.div x y)) g.
Proof. unfold bind, truediv. now destruct (PrimFloat.eqb y 0). Qed.

Lemma bind_truediv_np_l (x : float) (b : scalar) {B : Type} (k : scalar -> M B)
    (g : Globals.t) :
  bind (truediv (NpFloat64 x) b) k g = k (NpFloat64 (PrimFloat.div x (value b))) g.
Proof. now destruct b. Qed.

Lemma bind_truediv_np_r (x y : float) {B : Type} (k : scalar -> M B) (g : Globals.t) :
  bind (truediv (PyFloat x) (NpFloat64 y)) k g = k (NpFloat64 (PrimFloat.div x y)) g.
Proof. reflexivity. Qed.

(** Runs the reads and divisions at the head of a computation. *)
Ltac run_py :=
  repeat (cbn [py_add py_sub py_mul arith value];
          first
            [ rewrite bind_load
            | rewrite bind_truediv_np_l
            | rewrite bind_truediv_np_r
            | rewrite bind_truediv_py ]);
  cbn [py_add py_sub py_mul arith value].

(** ** The loop computes the specified iteration *)

Section LoopFacts.

Variable exp : float -> float.
Variable V : scalar.
Variables Jsc J0 n Rs Rsh : float.
Variable g : Globals.t.

Local Abbreviation J := (Spec.iterate exp (Globals.Vt g) (value V) Jsc J0 n Rs Rsh).
Local Abbreviation small := (Spec.step_small exp (Globals.Vt g) (value V) Jsc J0 n Rs Rsh).
Local Abbreviation stop := (Spec.stop_from exp (Globals.Vt g) (value V) Jsc J0 n Rs Rsh).
Local Abbreviation body := (newton_body exp V Jsc J0 n Rs Rsh).

(** Line 30 yields f at the current iterate, as a [numpy.float64]. *)
Lemma eval_f_ok (Jg : scalar) :
  zero_divisor g n Rsh = false ->
  eval_f exp V Jsc J0 n Rs Rsh Jg g
  = (Ok (NpFloat64 (Spec.f exp (Globals.Vt g) (value V) Jsc J0 n Rs Rsh (value Jg))), g).
Proof.
  unfold zero_divisor. intros Hz. apply orb_false_iff in Hz. destruct Hz as [E1 E2].
  unfold eval_f, Spec.f, np_exp.
  destruct V as [v|v], Jg as [x|x]; cbn [py_add py_sub py_mul arith value];
    run_py; rewrite ?E1, ?E2; reflexivity.
Qed.

(** Line 30 yields a value or raises [ZeroDivisionError], and leaves the
    module namespace alone. *)
Lemma eval_f_cases (Jg : scalar) :
  (exists y, eval_f exp V Jsc J0 n Rs Rsh Jg g = (Ok y, g)) \/
  eval_f exp V Jsc J0 n Rs Rsh Jg g = (Raise ZeroDivisionError, g).
Proof.
  unfold eval_f, np_exp.
  destruct V as [v|v], Jg as [x|x]; cbn [py_add py_sub py_mul arith value];
    run_py; try (left; eexists; reflexivity).
  destruct (PrimFloat.eqb (PrimFloat.mul n (Globals.Vt g)) 0); [now right|].
  destruct (PrimFloat.eqb Rsh 0); [now right|].
  left; eexists; reflexivity.
Qed.

(** Line 32 yields f' at the current iterate, as a [numpy.float64]. *)
Lemma eval_df_ok (Jg : scalar) :
  zero_divisor g n Rsh = false ->
  eval_df exp V J0 n Rs Rsh Jg g
  = (Ok (NpFloat64 (Spec.f' exp (Globals.Vt g) (value V) J0 n Rs Rsh (value Jg))), g).
Proof.
  unfold zero_divisor. intros Hz. apply orb_false_iff in Hz. destruct Hz as [E1 E2].
  unfold eval_df, Spec.f', np_exp.
  destruct V as [v|v], Jg as [x|x]; cbn [py_add py_sub py_mul arith value];
    run_py; rewrite ?E1; run_py; rewrite ?E1, ?E2; run_py; rewrite ?E2; reflexivity.
Qed.

(** Line 32 divides Python floats by [n*Vt] and by [Rsh]. *)
Lemma eval_df_raises (Jg : scalar) :
  zero_divisor g n Rsh = true ->
  eval_df exp V J0 n Rs Rsh Jg g = (Raise ZeroDivisionError, g).
Proof.
  unfold zero_divisor. intros Hz.
  unfold eval_df, np_exp. run_py.
  destruct (PrimFloat.eqb (PrimFloat.mul n (Globals.Vt g)) 0) eqn:E1; [reflexivity|].
  cbn in Hz.
  destruct V as [v|v], Jg as [x|x]; cbn [py_add py_sub py_mul arith value];
    run_py; rewrite ?E1; run_py; rewrite ?Hz; reflexivity.
Qed.

Lemma newton_body_raises (i : nat) (l : frame) :
  zero_divisor g n Rsh = true ->
  body i l g = (Raise ZeroDivisionError, g).
Proof.
  intros Hz. unfold newton_body.
  destruct (eval_f_cases (fr_J_guess l)) as [[y Hy]|Hr].
  - rewrite (bind_ok _ _ _ _ _ Hy).
    now rewrite (bind_raise _ _ _ _ _ (eval_df_raises (fr_J_guess l) Hz)).
  - now rewrite (bind_raise _ _ _ _ _ Hr).
Qed.

Lemma newton_body_steps (i : nat) (l : frame) :
  zero_divisor g n Rsh = false ->
  exists c l', body i l g = (Ok (c, l'), g) /\
              after_step exp V Jsc J0 n Rs Rsh g i (value (fr_J_guess l)) c l'.
Proof.
  intros Hz. unfold newton_body.
  rewrite (bind_ok _ _ _ _ _ (eval_f_ok (fr_J_guess l) Hz)).
  rewrite (bind_ok _ _ _ _ _ (eval_df_ok (fr_J_guess l) Hz)).
  unfold after_step, Spec.newton_step, bind, truediv, py_lt.
  destruct (fr_J_guess l) as [x|x]; cbn;
    match goal with
    | |- context [if ?b then _ else _] => destruct b
    end; eexists; eexists; (split; [reflexivity|]); cbn; auto 10.
Qed.

(** The loop over [k, ..., k + cap - 1], entered with the iterate J_k. *)
Lemma for_in_steps (cap k : nat) (l : frame) :
  zero_divisor g n Rsh = false ->
  value (fr_J_guess l) = J k ->
  exists l',
    for_in body (seq k (S cap)) l g = (Ok l', g) /\
    fr_J_new l' = Some (NpFloat64 (J (S (stop k (S cap))))) /\
    fr_loop l' = Some (stop k (S cap)).
Proof.
  intros Hz. revert k l.
  induction cap as [|cap IH]; intros k l Hl;
    destruct (newton_body_steps k l Hz) as (c & l1 & Hb & Hf & Hdf & Hn & Hi & Hc);
    rewrite Hl in Hc, Hn;
    change (seq k (S ?m)) with (k :: seq (S k) m);
    cbn [for_in]; rewrite (bind_ok _ _ _ _ _ Hb).
  - exists l1. cbn [seq for_in]. split; [destruct c; reflexivity|]. now split.
  - change (stop k (S (S cap))) with (if small k then k else stop (S k) (S cap)).
    change (small k)
      with (PrimFloat.ltb
              (PrimFloat.abs
                 (PrimFloat.sub
                    (Spec.newton_step exp (Globals.Vt g) (value V) Jsc J0 n Rs Rsh (J k))
                    (J k))) 1e-10).
    destruct (PrimFloat.ltb _ _).
    + subst c. exists l1. now split.
    + destruct Hc as [-> Hg]. apply IH. rewrite Hg. reflexivity.
Qed.

End LoopFacts.

(** ** Where the specified iteration stops *)

Section StopIndex.

Variable exp : float -> float.
Variables Vt V Jsc J0 n Rs Rsh : float.

Local Abbreviation small := (Spec.step_small exp Vt V Jsc J0 n Rs Rsh).
Local Abbreviation stop := (Spec.stop_from exp Vt V Jsc J0 n Rs Rsh).

Lemma stop_from_one (k : nat) : stop k 1 = k.
Proof. reflexivity. Qed.

Lemma stop_from_more (cap k : nat) :
  stop k (S (S cap)) = if small k then k else stop (S k) (S cap).
Proof. reflexivity. Qed.

Lemma stop_from_range (cap k : nat) : (k <= stop k (S cap) <= k + cap)%nat.
Proof.
  revert k. induction cap as [|cap IH]; intros k.
  - rewrite stop_from_one. lia.
  - rewrite stop_from_more. destruct (small k); [lia|].
    specialize (IH (S k)). lia.
Qed.

Lemma stop_from_first (cap k j : nat) :
  (k <= j < stop k (S cap))%nat -> small j = false.
Proof.
  revert k. induction cap as [|cap IH]; intros k.
  - rewrite stop_from_one. lia.
  - rewrite stop_from_more. destruct (small k) eqn:E; [lia|].
    intros H. destruct (Nat.eq_dec j k) as [->|Hne]; [exact E|].
    apply (IH (S k)). lia.
Qed.

Lemma stop_from_hit (cap k : nat) :
  small (stop k (S cap)) = true \/ stop k (S cap) = (k + cap)%nat.
Proof.
  revert k. induction cap as [|cap IH]; intros k.
  - right. rewrite stop_from_one. lia.
  - rewrite stop_from_more. destruct (small k) eqn:E; [now left|].
    destruct (IH (S k)) as [H|H]; [now left|right]. lia.
Qed.

Lemma stop_from_exhausted (cap k : nat) :
  forallb (fun j => negb (small j)) (seq k (S cap)) = true ->
  stop k (S cap) = (k + cap)%nat.
Proof.
  revert k. induction cap as [|cap IH]; intros k H.
  - rewrite stop_from_one. lia.
  - change (seq k (S (S cap))) with (k :: seq (S k) (S cap)) in H.
    cbn [forallb] in H. apply andb_true_iff in H. destruct H as [Hk H].
    rewrite stop_from_more. destruct (small k); [discriminate|].
    rewrite (IH (S k) H). lia.
Qed.

End StopIndex.

(** ** The call as a whole *)

Section CallFacts.

Variable exp : float -> float.
Variable V : scalar.
Variables Jsc J0 n Rs Rsh : float.
Variable g : Globals.t.

Lemma solar_cell_current_frame_ok :
  zero_divisor g n Rsh = false ->
  exists l,
    solar_cell_current_frame exp V Jsc J0 n Rs Rsh g = (Ok l, g) /\
    fr_J_new l = Some (NpFloat64 (Spec.result exp (Globals.Vt g) (value V) Jsc J0 n Rs Rsh)) /\
    fr_loop l = Some (Spec.stop_index exp (Globals.Vt g) (value V) Jsc J0 n Rs Rsh).
Proof.
  intros Hz. unfold solar_cell_current_frame, range.
  apply (for_in_steps exp V Jsc J0 n Rs Rsh g 99 0 _ Hz). reflexivity.
Qed.

Lemma solar_cell_current_frame_raises :
  zero_divisor g n Rsh = true ->
  solar_cell_current_frame exp V Jsc J0 n Rs Rsh g = (Raise ZeroDivisionError, g).
Proof.
  intros Hz. unfold solar_cell_current_frame, range.
  change (seq 0 100) with (0%nat :: seq 1 99). cbn [for_in].
  apply bind_raise. now apply newton_body_raises.
Qed.

Lemma solar_cell_current_body_run :
  solar_cell_current_body exp V Jsc J0 n Rs Rsh g =
  if zero_divisor g n Rsh then (Raise ZeroDivisionError, g)
  else (Ok (NpFloat64 (Spec.result exp (Globals.Vt g) (value V) Jsc J0 n Rs Rsh)), g).
Proof.
  unfold solar_cell_current_body. destruct (zero_divisor g n Rsh) eqn:Hz.
  - apply bind_raise. now apply solar_cell_current_frame_raises.
  - destruct (solar_cell_current_frame_ok Hz) as (l & Hl & Hn & _).
    rewrite (bind_ok _ _ _ _ _ Hl), Hn. reflexivity.
Qed.

End CallFacts.


(** The Python type of [V] does not matter to the outcome: the sweep passes
    [numpy.float64] samples, a caller may pass a [float]. *)
Lemma solar_cell_current_any_float_type (exp : float -> float) (v : float)
    (Jsc J0 n Rs Rsh : option float) (g : Globals.t) :
  solar_cell_current exp (NpFloat64 v) Jsc J0 n Rs Rsh g =
  solar_cell_current exp (PyFloat v) Jsc J0 n Rs Rsh g.
Proof. unfold solar_cell_current. now rewrite !solar_cell_current_body_run. Qed.

(** ** The sweep *)

Lemma list_comprehension_ok {X Y : Type} (f : X -> M Y) (h : X -> Y) (g : Globals.t)
    (xs : list X) :
  (forall x, f x g = (Ok (h x), g)) ->
  list_comprehension f xs g = (Ok (map h xs), g).
Proof.
  intros Hf. induction xs as [|x xs IH]; [reflexivity|].
  cbn [list_comprehension map].
  rewrite (bind_ok _ _ _ _ _ (Hf x)), (bind_ok _ _ _ _ _ IH). reflexivity.
Qed.

Lemma Forall2_map_graph {X Y : Type} (h : X -> Y) (R : X -> Y -> Prop) (xs : list X) :
  (forall x, R x (h x)) -> Forall2 R xs (map h xs).
Proof. intros HR. induction xs; cbn; constructor; auto. Qed.

Lemma nth_np_multiply (xs ys : list scalar) (i : nat) (d : scalar) :
  (i < length xs)%nat -> length xs = length ys ->
  nth i (np_multiply xs ys) d = py_mul (nth i xs d) (nth i ys d).
Proof.
  revert ys i. induction xs as [|x xs IH]; intros [|y ys] i Hi Hlen;
    cbn in *; try lia; try discriminate.
  destruct i as [|i]; [reflexivity|]. apply IH; lia.
Qed.

Lemma length_np_multiply (xs ys : list scalar) :
  length xs = length ys -> length (np_multiply xs ys) = length xs.
Proof.
  revert ys. induction xs as [|x xs IH]; intros [|y ys] Hlen;
    cbn in *; try lia; try discriminate.
  f_equal. apply IH. lia.
Qed.

Lemma nth_map_seq {Y : Type} (F : nat -> Y) (num i : nat) (d : Y) :
  (i < num)%nat -> nth i (map F (seq 0 num)) d = F i.
Proof.
  intros Hi.
  rewrite (nth_indep _ d (F 0%nat)) by (rewrite length_map, length_seq; exact Hi).
  rewrite map_nth, seq_nth by exact Hi. reflexivity.
Qed.

Lemma nth_np_linspace (start stop : float) (num i : nat) (d : scalar) :
  (i < num)%nat ->
  nth i (np_linspace start stop num) d =
  NpFloat64 (if Nat.eqb i (num - 1) then stop
             else PrimFloat.add
                    (PrimFloat.mul (float_of_nat i)
                       (PrimFloat.div (PrimFloat.sub stop start) (float_of_nat (num - 1))))
                    start).
Proof. intros Hi. unfold np_linspace. now rewrite nth_map_seq. Qed.

(** ** The Newton denominator *)

Lemma ltb_zero_not_zero (x : float) :
  PrimFloat.ltb 0 x = true -> PrimFloat.eqb x 0 = false.
Proof.
  rewrite ltb_spec, eqb_spec. change (Prim2SF 0) with (S754_zero false).
  now destruct (Prim2SF x) as [b|[]| |[] m e].
Qed.

(** f' is NaN or at least 1 when its ingredients are not negative. *)
Lemma f'_ge_one (exp : float -> float) (Vt V J0 n Rs Rsh J : float) :
  PrimFloat.leb 0 J0 = true ->
  PrimFloat.leb 0 Rs = true ->
  PrimFloat.ltb 0 Rsh = true ->
  PrimFloat.ltb 0 n = true ->
  PrimFloat.ltb 0 Vt = true ->
  SFnonneg (Prim2SF (exp ((V + J * Rs) / (n * Vt))%float)) = true ->
  SFge_one (Prim2SF (Spec.f' exp Vt V J0 n Rs Rsh J)) = true.
Proof.
  intros HJ0 HRs HRsh Hn HVt HE. unfold Spec.f'.
  rewrite add_spec. apply SF64add_ge_one_nonneg.
  - apply Prim2SF_valid.
  - rewrite add_spec. change (Prim2SF 1) with SF1. apply SF64add_one_nonneg.
    + apply Prim2SF_valid.
    + rewrite mul_spec. apply SF64mul_nonneg; [|exact HE].
      rewrite div_spec. apply SF64div_nonneg.
      * rewrite mul_spec. apply SF64mul_nonneg; now apply leb_zero_nonneg.
      * rewrite mul_spec. apply SF64mul_positive; now apply ltb_zero_positive.
  - rewrite div_spec. apply SF64div_nonneg.
    + now apply leb_zero_nonneg.
    + now apply SFpositive_sign_clear, ltb_zero_positive.
Qed.

(** ** Overflow of the exponential *)

Lemma nan_sub (x : float) : PrimFloat.sub nan x = nan.
Proof. apply Prim2SF_inj. rewrite sub_spec. reflexivity. Qed.

Lemma infinity_add (y : float) :
  PrimFloat.add infinity y = infinity \/ PrimFloat.add infinity y = nan.
Proof.
  assert (H : Prim2SF (PrimFloat.add infinity y) = S754_infinity false \/
              Prim2SF (PrimFloat.add infinity y) = S754_nan).
  { rewrite add_spec. change (Prim2SF infinity) with (S754_infinity false).
    destruct (Prim2SF y) as [b|[]| |b m e]; cbn; auto. }
  destruct H as [H|H]; [left|right]; apply Prim2SF_inj; rewrite H; reflexivity.
Qed.

Section Overflow.

Local Open Scope float_scope.

Variable exp : float -> float.
Variable V : float.

(** The exponential of the first pass, with the module's parameters. *)
Hypothesis exp_overflows :
  exp ((V + 30.52638788 * 0.001) / (1.2 * 0.02585)) = infinity.

Local Abbreviation J := (Spec.iterate exp 0.02585 V 30.52638788 1e-12 1.2 0.001 10000).

Lemma first_iterate_nan : J 1 = nan.
Proof.
  cbn [Spec.iterate]. unfold Spec.newton_step, Spec.f, Spec.f'. rewrite exp_overflows.
  change (30.52638788 - 30.52638788 + 1e-12 * (infinity - 1)) with infinity.
  change (1 + 1e-12 * 0.001 / (1.2 * 0.02585) * infinity + 0.001 / 10000) with infinity.
  destruct (infinity_add ((V + 30.52638788 * 0.001) / 10000)) as [-> | ->]; reflexivity.
Qed.

Lemma later_iterates_nan (k : nat) : J (S k) = nan.
Proof.
  induction k as [|k IH]; [exact first_iterate_nan|].
  change (J (S (S k)))
    with (Spec.newton_step exp 0.02585 V 30.52638788 1e-12 1.2 0.001 10000 (J (S k))).
  rewrite IH. unfold Spec.newton_step. apply nan_sub.
Qed.

Lemma no_step_is_small (k : nat) :
  Spec.step_small exp 0.02585 V 30.52638788 1e-12 1.2 0.001 10000 k = false.
Proof. unfold Spec.step_small. rewrite later_iterates_nan, nan_sub. reflexivity. Qed.

Lemma overflow_never_converges :
  Spec.never_converges exp 0.02585 V 30.52638788 1e-12 1.2 0.001 10000 = true.
Proof.
  unfold Spec.never_converges. apply forallb_forall. intros k _.
  now rewrite no_step_is_small.
Qed.

End Overflow.

(** * The claims *)

(** C1. The solver computes the current density by Newton-Raphson as
    specified.  Every pass through the loop body binds [f] to f(J), [df] to
    f'(J) and [J_new] to J - f(J)/f'(J) for the current iterate J, with f and
    f' the specification's formulas; and the call returns the iterate
    J_(k+1) of the sequence J_0 = Jsc, J_(k+1) = J_k - f(J_k)/f'(J_k) at the
    step k where the specified stopping rule stops.  This holds for every
    voltage and every parameter set for which Python's division is defined;
    when [n*Vt] or [Rsh] is zero the formulas divide by zero and the call
    raises [ZeroDivisionError]. *)
Theorem solar_cell_current_is_newton_raphson (exp : float -> float) (V : scalar)
    (Jsc J0 n Rs Rsh : option float) (g : Globals.t) :
  let Jsc' := kwarg Jsc (Globals.Jsc module_globals) in
  let J0' := kwarg J0 (Globals.J0 module_globals) in
  let n' := kwarg n (Globals.n module_globals) in
  let Rs' := kwarg Rs (Globals.Rs module_globals) in
  let Rsh' := kwarg Rsh (Globals.Rsh module_globals) in
  (if zero_divisor g n' Rsh' then True
   else forall (i : nat) (l : frame),
       exists c l',
         newton_body exp V Jsc' J0' n' Rs' Rsh' i l g = (Ok (c, l'), g) /\
         after_step exp V Jsc' J0' n' Rs' Rsh' g i (value (fr_J_guess l)) c l') /\
  solar_cell_current exp V Jsc J0 n Rs Rsh g =
  if zero_divisor g n' Rsh' then (Raise ZeroDivisionError, g)
  else (Ok (NpFloat64 (Spec.result exp (Globals.Vt g) (value V) Jsc' J0' n' Rs' Rsh')), g).
Proof.
  intros Jsc' J0' n' Rs' Rsh'. split.
  - destruct (zero_divisor g n' Rsh') eqn:Hz; [exact I|].
    intros i l. now apply newton_body_steps.
  - unfold solar_cell_current. apply solar_cell_current_body_run.
Qed.

(** C2. The iteration terminates within the cap.  For every input the loop
    is left with the loop variable [_] bound to some k < 100, so that k + 1,
    at most 100, Newton updates were made; k is the first step whose size
    |J_(k+1) - J_k| is below 1e-10, or 99 when there is none.  (The only
    other way out is the [ZeroDivisionError] of the first pass.) *)
Theorem solar_cell_current_stops_within_cap (exp : float -> float) (V : scalar)
    (Jsc J0 n Rs Rsh : float) (g : Globals.t) :
  let small := Spec.step_small exp (Globals.Vt g) (value V) Jsc J0 n Rs Rsh in
  solar_cell_current_frame exp V Jsc J0 n Rs Rsh g = (Raise ZeroDivisionError, g) \/
  exists (l : frame) (k : nat),
    solar_cell_current_frame exp V Jsc J0 n Rs Rsh g = (Ok l, g) /\
    fr_loop l = Some k /\
    (k < 100)%nat /\
    (small k = true \/ k = 99%nat) /\
    (forall j : nat, (j < k)%nat -> small j = false).
Proof.
  intros small. destruct (zero_divisor g n Rsh) eqn:Hz.
  - left. now apply solar_cell_current_frame_raises.
  - right. destruct (solar_cell_current_frame_ok exp V Jsc J0 n Rs Rsh g Hz)
      as (l & Hl & _ & Hk).
    exists l, (Spec.stop_index exp (Globals.Vt g) (value V) Jsc J0 n Rs Rsh).
    unfold Spec.stop_index in *. repeat split; try assumption.
    + pose proof (stop_from_range exp (Globals.Vt g) (value V) Jsc J0 n Rs Rsh 99 0). lia.
    + destruct (stop_from_hit exp (Globals.Vt g) (value V) Jsc J0 n Rs Rsh 99 0) as [H|H];
        [now left|right; exact H].
    + intros j Hj.
      apply (stop_from_first exp (Globals.Vt g) (value V) Jsc J0 n Rs Rsh 99 0 j). lia.
Qed.

(** C3. When no step within the cap meets the tolerance, the call returns
    the last iterate computed, J_100, as an ordinary value: no exception and
    no flag, the same shape of result as a converged call. *)
Theorem solar_cell_current_returns_last_iterate (exp : float -> float) (V : scalar)
    (Jsc J0 n Rs Rsh : option float) (g : Globals.t) :
  let Jsc' := kwarg Jsc (Globals.Jsc module_globals) in
  let J0' := kwarg J0 (Globals.J0 module_globals) in
  let n' := kwarg n (Globals.n module_globals) in
  let Rs' := kwarg Rs (Globals.Rs module_globals) in
  let Rsh' := kwarg Rsh (Globals.Rsh module_globals) in
  zero_divisor g n' Rsh' = false ->
  Spec.never_converges exp (Globals.Vt g) (value V) Jsc' J0' n' Rs' Rsh' = true ->
  solar_cell_current exp V Jsc J0 n Rs Rsh g =
  (Ok (NpFloat64 (Spec.iterate exp (Globals.Vt g) (value V) Jsc' J0' n' Rs' Rsh' 100)), g).
Proof.
  intros Jsc' J0' n' Rs' Rsh' Hz Hnc.
  unfold solar_cell_current. rewrite solar_cell_current_body_run.
  fold Jsc' J0' n' Rs' Rsh'. rewrite Hz.
  unfold Spec.result, Spec.stop_index.
  now rewrite (stop_from_exhausted exp (Globals.Vt g) (value V) Jsc' J0' n' Rs' Rsh' 99 0 Hnc).
Qed.

(** The reference call of C3's theorem: at V = 1000 the exponential
    overflows, every iterate after J_0 is NaN and no step compares below the
    tolerance. *)
Lemma solar_cell_current_returns_last_iterate_witness :
  zero_divisor module_globals (Globals.n module_globals) (Globals.Rsh module_globals) = false /\
  Spec.never_converges exp_model (Globals.Vt module_globals) 1000
    (Globals.Jsc module_globals) (Globals.J0 module_globals) (Globals.n module_globals)
    (Globals.Rs module_globals) (Globals.Rsh module_globals) = true /\
  solar_cell_current exp_model (PyFloat 1000) None None None None None module_globals =
  (Ok (NpFloat64 nan), module_globals).
Proof.
  split; [vm_compute; reflexivity|]. split; [vm_compute; reflexivity|].
  rewrite (solar_cell_current_returns_last_iterate exp_model (PyFloat 1000)
             None None None None None module_globals);
    vm_compute; reflexivity.
Defined.

(** C4, as the code has it.  The solver neither detects nor clamps an
    overflow of the exponential: when [np.exp] returns infinity in the first
    pass (reference parameters), f and f' are infinite, every iterate from
    J_1 on is NaN, no step compares below the tolerance, and after 100 passes
    the NaN is returned as an ordinary value; no exception is raised. *)
Theorem overflow_is_returned_as_nan (exp : float -> float) (V : scalar) :
  exp ((value V + 30.52638788 * 0.001) / (1.2 * 0.02585))%float = infinity ->
  solar_cell_current exp V None None None None None module_globals
  = (Ok (NpFloat64 nan), module_globals) /\
  exists l : frame,
    solar_cell_current_frame exp V 30.52638788 1e-12 1.2 0.001 10000 module_globals
    = (Ok l, module_globals) /\
    fr_loop l = Some 99%nat.
Proof.
  intros HE. split.
  - unfold solar_cell_current. rewrite solar_cell_current_body_run.
    change (zero_divisor module_globals _ _) with false. cbv iota.
    unfold Spec.result. f_equal. f_equal. f_equal.
    exact (later_iterates_nan exp (value V) HE _).
  - destruct (solar_cell_current_frame_ok exp V 30.52638788 1e-12 1.2 0.001 10000
                module_globals eq_refl) as (l & Hl & _ & Hk).
    exists l. split; [exact Hl|]. rewrite Hk. f_equal.
    exact (stop_from_exhausted exp 0.02585 (value V) 30.52638788 1e-12 1.2 0.001 10000
             99 0 (overflow_never_converges exp (value V) HE)).
Qed.

(** The reference call at V = 1000, where the argument of the exponential is
    about 32238. *)
Lemma overflow_is_returned_as_nan_witness :
  exp_model ((1000 + 30.52638788 * 0.001) / (1.2 * 0.02585))%float = infinity /\
  solar_cell_current exp_model (PyFloat 1000) None None None None None module_globals
  = (Ok (NpFloat64 nan), module_globals).
Proof.
  split; [vm_compute; reflexivity|].
  apply (overflow_is_returned_as_nan exp_model (PyFloat 1000)). vm_compute. reflexivity.
Defined.

(** C4 as stated fails: at V = 1000 the argument of the exponential is far
    above 709.78, the exponential overflows, and the call ends in a value, a
    NaN, not in an error. *)
Lemma overflow_raises_nothing :
  PrimFloat.ltb 709.782712893384 ((1000 + 30.52638788 * 0.001) / (1.2 * 0.02585)) = true /\
  is_ok (fst (solar_cell_current exp_model (PyFloat 1000) None None None None None
                module_globals)) = true /\
  fst (solar_cell_current exp_model (PyFloat 1000) None None None None None module_globals)
  = Ok (NpFloat64 nan).
Proof. repeat split; vm_compute; reflexivity. Qed.

(** C5, as the code has it.  The solver validates nothing: whatever the
    signs of [n] and [Rsh], the call returns a value exactly when neither
    [n*Vt] nor [Rsh] is zero; and when one of them is zero nothing is checked
    before the loop either: the call runs into [ZeroDivisionError] while
    evaluating lines 30-32 in the first pass through the loop body. *)
Theorem solar_cell_current_validates_nothing (exp : float -> float) (V : scalar)
    (Jsc J0 n Rs Rsh : option float) (g : Globals.t) :
  let Jsc' := kwarg Jsc (Globals.Jsc module_globals) in
  let J0' := kwarg J0 (Globals.J0 module_globals) in
  let n' := kwarg n (Globals.n module_globals) in
  let Rs' := kwarg Rs (Globals.Rs module_globals) in
  let Rsh' := kwarg Rsh (Globals.Rsh module_globals) in
  is_ok (fst (solar_cell_current exp V Jsc J0 n Rs Rsh g)) = negb (zero_divisor g n' Rsh') /\
  (if zero_divisor g n' Rsh'
   then forall l : frame,
       newton_body exp V Jsc' J0' n' Rs' Rsh' 0 l g = (Raise ZeroDivisionError, g)
   else True).
Proof.
  intros Jsc' J0' n' Rs' Rsh'. unfold solar_cell_current.
  rewrite solar_cell_current_body_run. fold Jsc' J0' n' Rs' Rsh'.
  destruct (zero_divisor g n' Rsh') eqn:Hz; split; try reflexivity; try exact I.
  intros l. now apply newton_body_raises.
Qed.

(** C5 as stated fails: with the non-positive ideality factor n = -1.2 the
    call is not rejected; the iteration runs and a value comes back. *)
Lemma negative_n_is_not_rejected :
  (PrimFloat.leb (-1.2) 0 = true) /\
  is_ok (fst (solar_cell_current exp_model (PyFloat 0.5) None None (Some (-1.2)%float)
                None None module_globals)) = true /\
  (exists k : nat,
     option_map fr_loop
       (match fst (solar_cell_current_frame exp_model (PyFloat 0.5)
                     (Globals.Jsc module_globals) (Globals.J0 module_globals) (-1.2)
                     (Globals.Rs module_globals) (Globals.Rsh module_globals)
                     module_globals) with
        | Ok l => Some l
        | Raise _ => None
        end) = Some (Some k)).
Proof.
  split; [vm_compute; reflexivity|]. split; [vm_compute; reflexivity|].
  vm_compute. eexists. reflexivity.
Qed.


(** C8. The sweep builds the grid of exactly 500 samples from -0.1 to
    Voc + 0.05, evenly spaced (sample i is i*step - 0.1 with the one step
    (Voc + 0.05 + 0.1)/499, the last one the end point itself) and strictly
    increasing; [J_range] holds, in the order of the grid, the value the
    solver returns for each sample; and [P_range] is their product, point by
    point. *)
Theorem sweep_solves_each_grid_point (exp : float -> float) :
  let start := (-0.1)%float in
  let stop := (1.008312 + 0.05)%float in
  let step := ((stop - start) / 499)%float in
  exists Vs Js Ps : list scalar,
    sweep exp module_globals = (Ok (Vs, Js, Ps), module_globals) /\
    (length Vs = 500 /\ length Js = 500 /\ length Ps = 500)%nat /\
    nth 0 Vs (NpFloat64 nan) = NpFloat64 start /\
    nth 499 Vs (NpFloat64 nan) = NpFloat64 stop /\
    (forall i : nat, (i < 499)%nat ->
       nth i Vs (NpFloat64 nan) = NpFloat64 (float_of_nat i * step + start)%float) /\
    ascending Vs = true /\
    Forall2 (fun V J =>
               solar_cell_current exp V None None None None None module_globals
               = (Ok J, module_globals)) Vs Js /\
    (forall i : nat, (i < 500)%nat ->
       nth i Ps (NpFloat64 nan) = py_mul (nth i Vs (NpFloat64 nan)) (nth i Js (NpFloat64 nan))).
Proof.
  intros start stop step.
  set (h := fun V : scalar =>
              NpFloat64 (Spec.result exp 0.02585 (value V) 30.52638788 1e-12 1.2 0.001 10000)).
  assert (Hcall : forall V, solar_cell_current exp V None None None None None module_globals
                            = (Ok (h V), module_globals)).
  { intros V. unfold solar_cell_current. rewrite solar_cell_current_body_run. reflexivity. }
  set (Vs := np_linspace start stop 500).
  assert (HlenV : length Vs = 500%nat)
    by (unfold Vs, np_linspace; now rewrite length_map, length_seq).
  assert (HlenJ : length (map h Vs) = 500%nat) by now rewrite length_map.
  exists Vs, (map h Vs), (np_multiply Vs (map h Vs)).
  split.
  { unfold sweep, J_range.
    rewrite (bind_ok V_range _ module_globals module_globals Vs) by reflexivity.
    rewrite (bind_ok _ _ _ _ _ (list_comprehension_ok _ h module_globals Vs Hcall)).
    reflexivity. }
  split.
  { split; [exact HlenV|]. split; [exact HlenJ|].
    rewrite length_np_multiply; congruence. }
  split; [unfold Vs; now rewrite nth_np_linspace by lia|].
  split; [unfold Vs; now rewrite nth_np_linspace by lia|].
  split.
  { intros i Hi. unfold Vs. rewrite nth_np_linspace by lia.
    destruct (Nat.eqb_spec i (500 - 1)) as [E|_]; [cbn in E; lia|reflexivity]. }
  split; [vm_compute; reflexivity|].
  split; [apply Forall2_map_graph; exact Hcall|].
  intros i Hi. apply nth_np_multiply; lia.
Qed.

(** C9, as the code has it.  With J0 >= 0, Rs >= 0, Rsh > 0, n > 0, Vt > 0
    and an exponential that is not negative, the denominator [df] of line 32
    is, at every iterate, either NaN or at least 1; in particular it is never
    zero.  (NaN comes from 0 times infinity or infinity over infinity, when a
    factor has overflowed.  When [n*Vt] underflows to zero, line 32 raises
    [ZeroDivisionError] and binds no [df].) *)
Theorem df_is_nan_or_at_least_one (exp : float -> float) (V : scalar)
    (J0 n Rs Rsh : float) (J_guess : scalar) (g : Globals.t) :
  PrimFloat.leb 0 J0 = true ->
  PrimFloat.leb 0 Rs = true ->
  PrimFloat.ltb 0 Rsh = true ->
  PrimFloat.ltb 0 n = true ->
  PrimFloat.ltb 0 (Globals.Vt g) = true ->
  (let E := exp ((value V + value J_guess * Rs) / (n * Globals.Vt g))%float in
   is_nan E || PrimFloat.leb 0 E) = true ->
  if PrimFloat.eqb (n * Globals.Vt g) 0
  then eval_df exp V J0 n Rs Rsh J_guess g = (Raise ZeroDivisionError, g)
  else exists d : float,
      eval_df exp V J0 n Rs Rsh J_guess g = (Ok (NpFloat64 d), g) /\
      (is_nan d || PrimFloat.leb 1 d) = true /\
      PrimFloat.eqb d 0 = false.
Proof.
  intros HJ0 HRs HRsh Hn HVt HE.
  destruct (PrimFloat.eqb (n * Globals.Vt g) 0) eqn:E1.
  - apply eval_df_raises. unfold zero_divisor. now rewrite E1.
  - assert (Hz : zero_divisor g n Rsh = false)
      by (unfold zero_divisor; now rewrite E1, (ltb_zero_not_zero _ HRsh)).
    eexists. split; [apply eval_df_ok; exact Hz|].
    assert (H1 : SFge_one (Prim2SF (Spec.f' exp (Globals.Vt g) (value V) J0 n Rs Rsh
                                      (value J_guess))) = true)
      by (apply f'_ge_one; try assumption; now apply nonneg_spec).
    split; [now apply ge_one_spec|now apply ge_one_not_zero].
Qed.

(** The reference parameters at V = 0.5 and J = Jsc. *)
Lemma df_is_nan_or_at_least_one_witness :
  exists d : float,
    eval_df exp_model (PyFloat 0.5) 1e-12 1.2 0.001 10000 (PyFloat 30.52638788) module_globals
    = (Ok (NpFloat64 d), module_globals) /\
    (is_nan d || PrimFloat.leb 1 d) = true /\
    PrimFloat.eqb d 0 = false.
Proof.
  exact (df_is_nan_or_at_least_one exp_model (PyFloat 0.5) 1e-12 1.2 0.001 10000
           (PyFloat 30.52638788) module_globals
           eq_refl eq_refl eq_refl eq_refl eq_refl eq_refl).
Defined.

(** C9 as stated fails: with no series resistance (Rs = 0) and a voltage at
    which the exponential overflows, [df] is 1 + 0*inf + 0 = NaN, which is not
    at least 1. *)
Lemma df_is_nan_when_exp_overflows :
  PrimFloat.leb 0 1e-12 = true /\ PrimFloat.leb 0 0 = true /\
  PrimFloat.ltb 0 10000 = true /\ PrimFloat.ltb 0 1.2 = true /\
  PrimFloat.ltb 0 (Globals.Vt module_globals) = true /\
  eval_df exp_model (PyFloat 1000) 1e-12 1.2 0 10000 (PyFloat 30.52638788) module_globals
  = (Ok (NpFloat64 nan), module_globals) /\
  PrimFloat.leb 1 nan = false.
Proof. repeat split; vm_compute; reflexivity. Qed.


(** * Further properties of the solver *)

(** X1. The Python type of the voltage does not matter.  A [numpy.float64]
    (what the sweep passes) and a [float] of the same value give the same
    outcome, although line 30 divides by NumPy's rules in one case and by
    Python's in the other: when a divisor is zero, line 32 raises in both.
    And a value that comes back is always a [numpy.float64], never a
    [float]. *)
Theorem solar_cell_current_ignores_float_type (exp : float -> float) (v : float)
    (Jsc J0 n Rs Rsh : option float) (g : Globals.t) :
  solar_cell_current exp (NpFloat64 v) Jsc J0 n Rs Rsh g =
  solar_cell_current exp (PyFloat v) Jsc J0 n Rs Rsh g /\
  match fst (solar_cell_current exp (PyFloat v) Jsc J0 n Rs Rsh g) with
  | Ok (PyFloat _) => False
  | _ => True
  end.
Proof.
  unfold solar_cell_current. rewrite !solar_cell_current_body_run.
  split; [reflexivity|]. now destruct (zero_divisor _ _ _).
Qed.

(** ** NaN and zero in binary64 arithmetic *)

Lemma is_nan_eq (x : float) : is_nan x = true -> x = nan.
Proof.
  rewrite is_nan_spec. intros H. apply Prim2SF_inj.
  destruct (Prim2SF x); try discriminate. reflexivity.
Qed.

Lemma nan_sub_r (x : float) : PrimFloat.sub x nan = nan.
Proof.
  apply Prim2SF_inj. rewrite sub_spec. change (Prim2SF nan) with S754_nan.
  now destruct (Prim2SF x) as [[]|[]| |[] m e].
Qed.

Lemma nan_add_l (x : float) : PrimFloat.add nan x = nan.
Proof. apply Prim2SF_inj. rewrite add_spec. reflexivity. Qed.

Lemma nan_add_r (x : float) : PrimFloat.add x nan = nan.
Proof.
  apply Prim2SF_inj. rewrite add_spec. change (Prim2SF nan) with S754_nan.
  now destruct (Prim2SF x) as [[]|[]| |[] m e].
Qed.

Lemma nan_mul_l (x : float) : PrimFloat.mul nan x = nan.
Proof. apply Prim2SF_inj. rewrite mul_spec. reflexivity. Qed.

Lemma nan_mul_r (x : float) : PrimFloat.mul x nan = nan.
Proof.
  apply Prim2SF_inj. rewrite mul_spec. change (Prim2SF nan) with S754_nan.
  now destruct (Prim2SF x) as [[]|[]| |[] m e].
Qed.

Lemma nan_div_l (x : float) : PrimFloat.div nan x = nan.
Proof. apply Prim2SF_inj. rewrite div_spec. reflexivity. Qed.

Lemma nan_div_r (x : float) : PrimFloat.div x nan = nan.
Proof.
  apply Prim2SF_inj. rewrite div_spec. change (Prim2SF nan) with S754_nan.
  now destruct (Prim2SF x) as [[]|[]| |[] m e].
Qed.

Ltac nan_simpl :=
  repeat first
    [ rewrite nan_add_l | rewrite nan_add_r | rewrite nan_sub | rewrite nan_sub_r
    | rewrite nan_mul_l | rewrite nan_mul_r | rewrite nan_div_l | rewrite nan_div_r ].

(** ** The iteration from a NaN *)

Section NanIterates.

Variable exp : float -> float.
Variables Vt V Jsc J0 n Rs Rsh : float.

Local Abbreviation J := (Spec.iterate exp Vt V Jsc J0 n Rs Rsh).

Lemma first_iterate_of_nan_argument :
  (is_nan V || is_nan Vt || is_nan Jsc || is_nan J0 || is_nan n || is_nan Rs || is_nan Rsh)
  = true ->
  J 1 = nan.
Proof.
  intros H. cbn [Spec.iterate]. unfold Spec.newton_step, Spec.f, Spec.f'.
  repeat (apply orb_true_iff in H; destruct H as [H|H]);
    apply is_nan_eq in H; rewrite H; nan_simpl; reflexivity.
Qed.

Hypothesis first_nan : J 1 = nan.

Lemma iterates_stay_nan (k : nat) : J (S k) = nan.
Proof.
  induction k as [|k IH]; [exact first_nan|].
  change (J (S (S k))) with (Spec.newton_step exp Vt V Jsc J0 n Rs Rsh (J (S k))).
  rewrite IH. unfold Spec.newton_step. apply nan_sub.
Qed.

Lemma nan_step_is_not_small (k : nat) :
  Spec.step_small exp Vt V Jsc J0 n Rs Rsh k = false.
Proof. unfold Spec.step_small. rewrite iterates_stay_nan, nan_sub. reflexivity. Qed.

Lemma nan_never_converges : Spec.never_converges exp Vt V Jsc J0 n Rs Rsh = true.
Proof.
  unfold Spec.never_converges. apply forallb_forall. intros k _.
  now rewrite nan_step_is_not_small.
Qed.

End NanIterates.

(** X2. NaN in, NaN out.  When the voltage, the module's [Vt] or any of the
    five parameters is NaN (and neither [n*Vt] nor [Rsh] is zero, so that no
    division raises), the call raises nothing: every iterate from J_1 on is
    NaN, no step compares below the tolerance, the loop runs all 100 passes
    and NaN is returned.  This holds for every exponential. *)
Theorem nan_argument_gives_nan (exp : float -> float) (V : scalar)
    (Jsc J0 n Rs Rsh : option float) (g : Globals.t) :
  let Jsc' := kwarg Jsc (Globals.Jsc module_globals) in
  let J0' := kwarg J0 (Globals.J0 module_globals) in
  let n' := kwarg n (Globals.n module_globals) in
  let Rs' := kwarg Rs (Globals.Rs module_globals) in
  let Rsh' := kwarg Rsh (Globals.Rsh module_globals) in
  zero_divisor g n' Rsh' = false ->
  (is_nan (value V) || is_nan (Globals.Vt g) || is_nan Jsc' || is_nan J0' || is_nan n'
   || is_nan Rs' || is_nan Rsh') = true ->
  solar_cell_current exp V Jsc J0 n Rs Rsh g = (Ok (NpFloat64 nan), g) /\
  exists l : frame,
    solar_cell_current_frame exp V Jsc' J0' n' Rs' Rsh' g = (Ok l, g) /\
    fr_loop l = Some 99%nat.
Proof.
  intros Jsc' J0' n' Rs' Rsh' Hz Hnan.
  pose proof (first_iterate_of_nan_argument exp _ _ _ _ _ _ _ Hnan) as H1.
  split.
  - unfold solar_cell_current. rewrite solar_cell_current_body_run.
    fold Jsc' J0' n' Rs' Rsh'. rewrite Hz. unfold Spec.result.
    now rewrite (iterates_stay_nan exp _ _ _ _ _ _ _ H1).
  - destruct (solar_cell_current_frame_ok exp V Jsc' J0' n' Rs' Rsh' g Hz)
      as (l & Hl & _ & Hk).
    exists l. split; [exact Hl|]. rewrite Hk. f_equal.
    exact (stop_from_exhausted exp _ _ _ _ _ _ _ 99 0
             (nan_never_converges exp _ _ _ _ _ _ _ H1)).
Qed.

(** A NaN voltage, and a NaN shunt resistance, with the reference
    parameters otherwise. *)
Lemma nan_argument_gives_nan_witness :
  solar_cell_current exp_model (PyFloat nan) None None None None None module_globals
  = (Ok (NpFloat64 nan), module_globals) /\
  solar_cell_current exp_model (PyFloat 0.5) None None None None (Some nan) module_globals
  = (Ok (NpFloat64 nan), module_globals).
Proof.
  split.
  - apply (nan_argument_gives_nan exp_model (PyFloat nan) None None None None None
             module_globals); reflexivity.
  - apply (nan_argument_gives_nan exp_model (PyFloat 0.5) None None None None (Some nan)
             module_globals); reflexivity.
Defined.

(** ** Zeros and finite values *)

Section ZeroFacts.

Local Open Scope float_scope.

Lemma eqb_zero_spec (x : float) :
  (x =? 0) = true <-> exists b, Prim2SF x = S754_zero b.
Proof.
  rewrite eqb_spec. change (Prim2SF 0) with (S754_zero false).
  destruct (Prim2SF x) as [b|[]| |[] m e]; cbn; split; intros H;
    try discriminate; try reflexivity; try (now exists b);
    destruct H as [b' H]; discriminate.
Qed.

Lemma is_finite_spec (x : float) :
  is_finite x = true ->
  (exists b, Prim2SF x = S754_zero b) \/ (exists s m e, Prim2SF x = S754_finite s m e).
Proof.
  unfold is_finite, is_infinity. rewrite is_nan_spec, eqb_spec, abs_spec.
  change (Prim2SF infinity) with (S754_infinity false).
  destruct (Prim2SF x) as [b|[]| |s m e]; cbn; intros H; try discriminate.
  - left. now exists b.
  - right. now exists s, m, e.
Qed.

Lemma ltb_zero_spec (d : float) :
  (0 <? d) = true ->
  Prim2SF d = S754_infinity false \/ exists m e, Prim2SF d = S754_finite false m e.
Proof.
  rewrite ltb_spec. change (Prim2SF 0) with (S754_zero false).
  destruct (Prim2SF d) as [b|[]| |[] m e]; cbn; intros H; try discriminate.
  - now left.
  - right. now exists m, e.
Qed.

Lemma sub_self (x : float) : is_finite x = true -> x - x = 0.
Proof.
  intros H. apply Prim2SF_inj. rewrite sub_spec. change (Prim2SF 0) with (S754_zero false).
  destruct (is_finite_spec x H) as [[b ->]|(s & m & e & ->)]; [now destruct b|].
  unfold SF64sub, SFsub. rewrite Z.min_id. unfold shl_align. rewrite Z.sub_diag.
  reflexivity.
Qed.

Lemma sub_zero (x : float) : is_finite x = true -> x - 0 = x.
Proof.
  intros H. apply Prim2SF_inj. rewrite sub_spec. change (Prim2SF 0) with (S754_zero false).
  destruct (is_finite_spec x H) as [[b ->]|(s & m & e & ->)]; [now destruct b|reflexivity].
Qed.

Lemma mul_zero (x : float) : is_finite x = true -> (x * 0 =? 0) = true.
Proof.
  intros H. apply eqb_zero_spec. rewrite mul_spec. change (Prim2SF 0) with (S754_zero false).
  destruct (is_finite_spec x H) as [[b ->]|(s & m & e & ->)]; cbn; eexists; reflexivity.
Qed.

Lemma zero_add (z : float) : (z =? 0) = true -> 0 + z = 0.
Proof.
  intros H. apply eqb_zero_spec in H. destruct H as [b H].
  apply Prim2SF_inj. rewrite add_spec, H. now destruct b.
Qed.

Lemma one_add_zero (z : float) : (z =? 0) = true -> 1 + z = 1.
Proof.
  intros H. apply eqb_zero_spec in H. destruct H as [b H].
  apply Prim2SF_inj. rewrite add_spec, H. reflexivity.
Qed.

Lemma zero_mul_one (z : float) : (z =? 0) = true -> (z * 1 =? 0) = true.
Proof.
  intros H. apply eqb_zero_spec in H. destruct H as [b H].
  apply eqb_zero_spec. rewrite mul_spec, H. cbn. eexists; reflexivity.
Qed.

Lemma zero_div_positive (d : float) : (0 <? d) = true -> 0 / d = 0.
Proof.
  intros H. apply Prim2SF_inj. rewrite div_spec. change (Prim2SF 0) with (S754_zero false).
  destruct (ltb_zero_spec d H) as [->|(m & e & ->)]; reflexivity.
Qed.

Lemma zero_div (z d : float) :
  (z =? 0) = true -> is_nan d = false -> (d =? 0) = false -> (z / d =? 0) = true.
Proof.
  intros Hz Hn Hd. apply eqb_zero_spec in Hz. destruct Hz as [b Hz].
  apply eqb_zero_spec. rewrite div_spec, Hz.
  rewrite is_nan_spec in Hn. rewrite eqb_spec in Hd.
  change (Prim2SF 0) with (S754_zero false) in Hd.
  destruct (Prim2SF d) as [b'|b'| |s m e]; try discriminate; cbn; eexists; reflexivity.
Qed.

Lemma ltb_zero_not_nan (d : float) : (0 <? d) = true -> is_nan d = false.
Proof.
  intros H. rewrite is_nan_spec.
  destruct (ltb_zero_spec d H) as [->|(m & e & ->)]; reflexivity.
Qed.

Lemma eqb_refl_finite (x : float) : is_finite x = true -> (x =? x) = true.
Proof.
  intros H. rewrite eqb_spec. unfold SFeqb.
  destruct (is_finite_spec x H) as [[b ->]|(s & m & e & ->)];
    now rewrite SFcompare_refl.
Qed.

(** Taking a zero off a finite value leaves it, up to the sign of a zero. *)
Lemma sub_zero_like (x z : float) :
  is_finite x = true -> (z =? 0) = true ->
  (x - z =? x) = true /\ (abs (x - z - x) <? 1e-10) = true.
Proof.
  intros Hx Hz. apply eqb_zero_spec in Hz. destruct Hz as [bz Hz].
  destruct (is_finite_spec x Hx) as [[b E]|(s & m & e & E)].
  - assert (H1 : exists b1, Prim2SF (x - z) = S754_zero b1)
      by (rewrite sub_spec, E, Hz; destruct b, bz; eexists; reflexivity).
    destruct H1 as [b1 H1]. split.
    + rewrite eqb_spec, H1, E. reflexivity.
    + rewrite ltb_spec, abs_spec, sub_spec, H1, E. now destruct b1, b.
  - assert (H1 : x - z = x)
      by (apply Prim2SF_inj; rewrite sub_spec, E, Hz; reflexivity).
    rewrite H1, (sub_self x Hx). split; [now apply eqb_refl_finite|reflexivity].
Qed.

End ZeroFacts.

(** ** Stopping at the first pass *)

Lemma solar_cell_current_first_pass (exp : float -> float) (V : scalar)
    (Jsc J0 n Rs Rsh : float) (g : Globals.t) :
  zero_divisor g n Rsh = false ->
  Spec.step_small exp (Globals.Vt g) (value V) Jsc J0 n Rs Rsh 0 = true ->
  solar_cell_current_body exp V Jsc J0 n Rs Rsh g =
  (Ok (NpFloat64 (Spec.iterate exp (Globals.Vt g) (value V) Jsc J0 n Rs Rsh 1)), g) /\
  exists l : frame,
    solar_cell_current_frame exp V Jsc J0 n Rs Rsh g = (Ok l, g) /\
    fr_loop l = Some 0%nat.
Proof.
  intros Hz Hs.
  assert (Hstop : Spec.stop_index exp (Globals.Vt g) (value V) Jsc J0 n Rs Rsh = 0%nat).
  { unfold Spec.stop_index.
    rewrite (stop_from_more exp (Globals.Vt g) (value V) Jsc J0 n Rs Rsh 98 0).
    now rewrite Hs. }
  split.
  - rewrite solar_cell_current_body_run, Hz. unfold Spec.result. now rewrite Hstop.
  - destruct (solar_cell_current_frame_ok exp V Jsc J0 n Rs Rsh g Hz) as (l & Hl & _ & Hk).
    exists l. split; [exact Hl|]. now rewrite Hk, Hstop.
Qed.

(** ** The ideal cell at short circuit *)

Section ShortCircuit.

Local Open Scope float_scope.

Variable exp : float -> float.
Variables Vt Jsc J0 n Rsh : float.

Hypothesis exp_zero : exp 0 = 1.
Hypothesis Jsc_finite : is_finite Jsc = true.
Hypothesis J0_finite : is_finite J0 = true.
Hypothesis nVt_positive : (0 <? n * Vt) = true.
Hypothesis Rsh_not_nan : is_nan Rsh = false.
Hypothesis Rsh_not_zero : (Rsh =? 0) = false.

Lemma ideal_f_vanishes : Spec.f exp Vt 0 Jsc J0 n 0 Rsh Jsc = 0.
Proof.
  unfold Spec.f.
  rewrite (zero_add _ (mul_zero Jsc Jsc_finite)).
  rewrite (zero_div_positive _ nVt_positive), exp_zero.
  change (1 - 1) with 0.
  rewrite (sub_self Jsc Jsc_finite).
  rewrite (zero_add _ (mul_zero J0 J0_finite)).
  now rewrite (zero_add _ (zero_div 0 Rsh eq_refl Rsh_not_nan Rsh_not_zero)).
Qed.

Lemma ideal_f'_is_one : Spec.f' exp Vt 0 J0 n 0 Rsh Jsc = 1.
Proof.
  unfold Spec.f'.
  rewrite (zero_add _ (mul_zero Jsc Jsc_finite)).
  rewrite (zero_div_positive _ nVt_positive), exp_zero.
  rewrite (one_add_zero _
             (zero_mul_one _
                (zero_div (J0 * 0) (n * Vt) (mul_zero J0 J0_finite)
                   (ltb_zero_not_nan _ nVt_positive) (ltb_zero_not_zero _ nVt_positive)))).
  now rewrite (one_add_zero _ (zero_div 0 Rsh eq_refl Rsh_not_nan Rsh_not_zero)).
Qed.

Lemma ideal_first_iterate : Spec.iterate exp Vt 0 Jsc J0 n 0 Rsh 1 = Jsc.
Proof.
  cbn [Spec.iterate]. unfold Spec.newton_step.
  rewrite ideal_f_vanishes, ideal_f'_is_one. change (0 / 1) with 0.
  now apply sub_zero.
Qed.

Lemma ideal_first_step_small : Spec.step_small exp Vt 0 Jsc J0 n 0 Rsh 0 = true.
Proof.
  unfold Spec.step_small. rewrite ideal_first_iterate. cbn [Spec.iterate].
  now rewrite (sub_self Jsc Jsc_finite).
Qed.

End ShortCircuit.

(** X4. The ideal cell at short circuit.  With no series resistance
    ([Rs = 0]) and V = 0, the call returns [Jsc] itself, bit for bit, after a
    single pass: f(Jsc) evaluates to 0 and f'(Jsc) to 1 in binary64.  This
    holds for every finite [Jsc] and [J0], every [n] with [n*Vt] above zero,
    every [Rsh] that is neither zero nor NaN (an infinite one included), and
    every exponential with exp(0) = 1. *)
Theorem ideal_short_circuit_returns_Jsc (exp : float -> float) (V : scalar)
    (Jsc J0 n Rsh : option float) (g : Globals.t) :
  let Jsc' := kwarg Jsc (Globals.Jsc module_globals) in
  let J0' := kwarg J0 (Globals.J0 module_globals) in
  let n' := kwarg n (Globals.n module_globals) in
  let Rsh' := kwarg Rsh (Globals.Rsh module_globals) in
  exp 0%float = 1%float ->
  value V = 0%float ->
  is_finite Jsc' = true ->
  is_finite J0' = true ->
  PrimFloat.ltb 0 (n' * Globals.Vt g) = true ->
  is_nan Rsh' = false ->
  PrimFloat.eqb Rsh' 0 = false ->
  solar_cell_current exp V Jsc J0 n (Some 0%float) Rsh g = (Ok (NpFloat64 Jsc'), g) /\
  exists l : frame,
    solar_cell_current_frame exp V Jsc' J0' n' 0 Rsh' g = (Ok l, g) /\
    fr_loop l = Some 0%nat.
Proof.
  intros Jsc' J0' n' Rsh' He HV HJsc HJ0 Hn HRn HRz.
  assert (Hz : zero_divisor g n' Rsh' = false)
    by (unfold zero_divisor; now rewrite (ltb_zero_not_zero _ Hn), HRz).
  assert (Hs : Spec.step_small exp (Globals.Vt g) (value V) Jsc' J0' n' 0 Rsh' 0 = true)
    by (rewrite HV; now apply ideal_first_step_small).
  assert (H1 : Spec.iterate exp (Globals.Vt g) (value V) Jsc' J0' n' 0 Rsh' 1 = Jsc')
    by (rewrite HV; now apply ideal_first_iterate).
  destruct (solar_cell_current_first_pass exp V Jsc' J0' n' 0 Rsh' g Hz Hs) as [Hb Hl].
  split; [|exact Hl].
  unfold solar_cell_current. cbn [kwarg]. fold Jsc' J0' n' Rsh'. now rewrite Hb, H1.
Qed.

(** The reference parameters with [Rs=0], at the sample V = 0. *)
Lemma ideal_short_circuit_returns_Jsc_witness :
  solar_cell_current exp_model (NpFloat64 0) None None None (Some 0%float) None module_globals
  = (Ok (NpFloat64 30.52638788), module_globals).
Proof.
  apply (ideal_short_circuit_returns_Jsc exp_model (NpFloat64 0) None None None None
           module_globals); reflexivity.
Defined.

(** X3. A first guess that already solves the equation is returned at once.
    When f(Jsc) evaluates to zero, for a finite [Jsc] and an f'(Jsc) that is
    neither zero nor NaN, the first step is zero, the loop breaks in its
    first pass and the value returned equals [Jsc] (as numbers: a zero may
    come back with the other sign). *)
Theorem root_as_first_guess_is_returned (exp : float -> float) (V : scalar)
    (Jsc J0 n Rs Rsh : option float) (g : Globals.t) :
  let Jsc' := kwarg Jsc (Globals.Jsc module_globals) in
  let J0' := kwarg J0 (Globals.J0 module_globals) in
  let n' := kwarg n (Globals.n module_globals) in
  let Rs' := kwarg Rs (Globals.Rs module_globals) in
  let Rsh' := kwarg Rsh (Globals.Rsh module_globals) in
  let f0 := Spec.f exp (Globals.Vt g) (value V) Jsc' J0' n' Rs' Rsh' Jsc' in
  let df0 := Spec.f' exp (Globals.Vt g) (value V) J0' n' Rs' Rsh' Jsc' in
  zero_divisor g n' Rsh' = false ->
  is_finite Jsc' = true ->
  PrimFloat.eqb f0 0 = true ->
  is_nan df0 = false ->
  PrimFloat.eqb df0 0 = false ->
  exists r : float,
    solar_cell_current exp V Jsc J0 n Rs Rsh g = (Ok (NpFloat64 r), g) /\
    PrimFloat.eqb r Jsc' = true /\
    exists l : frame,
      solar_cell_current_frame exp V Jsc' J0' n' Rs' Rsh' g = (Ok l, g) /\
      fr_loop l = Some 0%nat.
Proof.
  intros Jsc' J0' n' Rs' Rsh' f0 df0 Hz HJsc Hf Hn Hd.
  destruct (sub_zero_like Jsc' (f0 / df0)%float HJsc (zero_div f0 df0 Hf Hn Hd)) as [He Hs].
  destruct (solar_cell_current_first_pass exp V Jsc' J0' n' Rs' Rsh' g Hz Hs) as [Hb Hl].
  eexists. split; [exact Hb|]. split; [exact He|exact Hl].
Qed.

(** A cell without diode current ([J0=0]) biased at V = -Jsc*Rs, where the
    shunt term vanishes. *)
Lemma root_as_first_guess_is_returned_witness :
  exists r : float,
    solar_cell_current exp_model (PyFloat (- (30.52638788 * 0.001))) None (Some 0%float)
      None None None module_globals
    = (Ok (NpFloat64 r), module_globals) /\
    PrimFloat.eqb r 30.52638788 = true /\
    exists l : frame,
      solar_cell_current_frame exp_model (PyFloat (- (30.52638788 * 0.001)))
        30.52638788 0 1.2 0.001 10000 module_globals = (Ok l, module_globals) /\
      fr_loop l = Some 0%nat.
Proof.
  exact (root_as_first_guess_is_returned exp_model (PyFloat (- (30.52638788 * 0.001)))
           None (Some 0%float) None None None module_globals
           eq_refl eq_refl eq_refl eq_refl eq_refl).
Defined.
